(** * interledger-stream: crypto.rs

    A shallow embedding of [crates/interledger-stream/src/crypto.rs].
    The crate calls the [ring] library for HMAC-SHA-256, SHA-256 and
    AES-256-GCM; those primitives are modelled here by executable
    definitions following FIPS 180-4, RFC 2104 and NIST SP 800-38D,
    including the argument checks [ring] performs before it computes.
    The crate's own functions are then written on top of them, with the
    functions that can panic ([encrypt_with_nonce], [decrypt]) written
    in a small monad that threads a log of the cryptographic calls made
    and has a panic outcome. *)

From Stdlib Require Import String ZArith List Bool Lia Strings.Byte.
Import ListNotations.
Open Scope Z_scope.

(** ** Bytes *)

(** A [&[u8]] / [BytesMut] is a list of bytes. *)
Definition bytes := list byte.

Definition byte_to_Z (b : byte) : Z := Z.of_N (Byte.to_N b).

Definition byte_of_Z (z : Z) : byte :=
  match Byte.of_N (Z.to_N (z mod 256)) with
  | Some b => b
  | None => x00
  end.

(** [u8] xor, bit by bit. *)
Definition bits8 := (bool * (bool * (bool * (bool * (bool * (bool * (bool * bool)))))))%type.

Definition xor_bits8 (x y : bits8) : bits8 :=
  let '(x0, (x1, (x2, (x3, (x4, (x5, (x6, x7))))))) := x in
  let '(y0, (y1, (y2, (y3, (y4, (y5, (y6, y7))))))) := y in
  (xorb x0 y0, (xorb x1 y1, (xorb x2 y2, (xorb x3 y3,
   (xorb x4 y4, (xorb x5 y5, (xorb x6 y6, xorb x7 y7))))))).

Definition byte_xor (a b : byte) : byte :=
  Byte.of_bits (xor_bits8 (Byte.to_bits a) (Byte.to_bits b)).

(** Element-wise xor of two byte strings, as long as the shorter one. *)
Fixpoint bytes_xor (xs ks : bytes) : bytes :=
  match xs, ks with
  | x :: xs', k :: ks' => byte_xor x k :: bytes_xor xs' ks'
  | _, _ => []
  end.

(** Equality of byte strings ([constant_time::verify_slices_are_equal]). *)
Fixpoint bytes_eqb (xs ys : bytes) : bool :=
  match xs, ys with
  | [], [] => true
  | x :: xs', y :: ys' => Byte.eqb x y && bytes_eqb xs' ys'
  | _, _ => false
  end.

(** [n] bytes of [z], most significant first. *)
Definition be_bytes (n : nat) (z : Z) : bytes :=
  map (fun i => byte_of_Z (Z.shiftr z (8 * Z.of_nat (n - 1 - i)))) (seq 0 n).

(** The big-endian value of a byte string. *)
Definition be_value (bs : bytes) : Z :=
  fold_left (fun acc b => acc * 256 + byte_to_Z b) bs 0.

(** Splitting into chunks of [k] elements (the last one may be shorter). *)
Fixpoint chunks_fuel {A} (k fuel : nat) (l : list A) : list (list A) :=
  match fuel with
  | O => []
  | S fuel' =>
      match l with
      | [] => []
      | _ => firstn k l :: chunks_fuel k fuel' (skipn k l)
      end
  end.

Definition chunks {A} (k : nat) (l : list A) : list (list A) :=
  chunks_fuel k (length l) l.

(** ** SHA-256 (FIPS 180-4), as computed by [ring::digest::SHA256] *)
Module Sha256.

Definition mask32 (x : Z) : Z := Z.land x (Z.ones 32).
Definition add32 (x y : Z) : Z := mask32 (x + y).
Definition rotr (n x : Z) : Z :=
  Z.lor (Z.shiftr x n) (mask32 (Z.shiftl x (32 - n))).

Definition ch (x y z : Z) : Z := Z.lxor (Z.land x y) (Z.land (Z.lnot x) z).
Definition maj (x y z : Z) : Z :=
  Z.lxor (Z.lxor (Z.land x y) (Z.land x z)) (Z.land y z).
Definition big_sigma0 (x : Z) : Z := Z.lxor (Z.lxor (rotr 2 x) (rotr 13 x)) (rotr 22 x).
Definition big_sigma1 (x : Z) : Z := Z.lxor (Z.lxor (rotr 6 x) (rotr 11 x)) (rotr 25 x).
Definition small_sigma0 (x : Z) : Z := Z.lxor (Z.lxor (rotr 7 x) (rotr 18 x)) (Z.shiftr x 3).
Definition small_sigma1 (x : Z) : Z := Z.lxor (Z.lxor (rotr 17 x) (rotr 19 x)) (Z.shiftr x 10).

(** Round constants (cube roots of the first 64 primes), in decimal. *)
Definition round_constants : list Z :=
  [1116352408; 1899447441; 3049323471; 3921009573; 961987163; 1508970993; 2453635748; 2870763221;
   3624381080; 310598401; 607225278; 1426881987; 1925078388; 2162078206; 2614888103; 3248222580;
   3835390401; 4022224774; 264347078; 604807628; 770255983; 1249150122; 1555081692; 1996064986;
   2554220882; 2821834349; 2952996808; 3210313671; 3336571891; 3584528711; 113926993; 338241895;
   666307205; 773529912; 1294757372; 1396182291; 1695183700; 1986661051; 2177026350; 2456956037;
   2730485921; 2820302411; 3259730800; 3345764771; 3516065817; 3600352804; 4094571909; 275423344;
   430227734; 506948616; 659060556; 883997877; 958139571; 1322822218; 1537002063; 1747873779;
   1955562222; 2024104815; 2227730452; 2361852424; 2428436474; 2756734187; 3204031479; 3329325298].

Record hash_state := HashState {
  ha : Z; hb : Z; hc : Z; hd : Z; he : Z; hf : Z; hg : Z; hh : Z }.

(** Initial hash value (square roots of the first 8 primes). *)
Definition initial_state : hash_state :=
  HashState 1779033703 3144134277 1013904242 2773480762
            1359893119 2600822924 528734635 1541459225.

(** Message schedule: the 16 block words extended to 64. The list is
    kept newest-first while it grows. *)
Fixpoint extend_schedule (n : nat) (rev_ws : list Z) : list Z :=
  match n with
  | O => rev_ws
  | S n' =>
      let w2 := nth 1 rev_ws 0 in
      let w7 := nth 6 rev_ws 0 in
      let w15 := nth 14 rev_ws 0 in
      let w16 := nth 15 rev_ws 0 in
      extend_schedule n'
        (add32 (add32 (small_sigma1 w2) w7) (add32 (small_sigma0 w15) w16) :: rev_ws)
  end.

Definition schedule (block_words : list Z) : list Z :=
  rev (extend_schedule 48 (rev block_words)).

Definition round (s : hash_state) (kw : Z * Z) : hash_state :=
  let '(k, w) := kw in
  let t1 := add32 (add32 (add32 (hh s) (big_sigma1 (he s)))
                         (add32 (ch (he s) (hf s) (hg s)) k)) w in
  let t2 := add32 (big_sigma0 (ha s)) (maj (ha s) (hb s) (hc s)) in
  HashState (add32 t1 t2) (ha s) (hb s) (hc s)
            (add32 (hd s) t1) (he s) (hf s) (hg s).

Definition compress (s : hash_state) (block : bytes) : hash_state :=
  let ws := schedule (map be_value (chunks 4 block)) in
  let s' := fold_left round (combine round_constants ws) s in
  HashState (add32 (ha s) (ha s')) (add32 (hb s) (hb s'))
            (add32 (hc s) (hc s')) (add32 (hd s) (hd s'))
            (add32 (he s) (he s')) (add32 (hf s) (hf s'))
            (add32 (hg s) (hg s')) (add32 (hh s) (hh s')).

(** Padding: a one bit, zeros up to 56 mod 64, then the bit length. *)
Definition pad (msg : bytes) : bytes :=
  let len := Z.of_nat (length msg) in
  msg ++ [x80] ++ repeat x00 (Z.to_nat ((55 - len) mod 64))
      ++ be_bytes 8 (8 * len).

Definition state_bytes (s : hash_state) : bytes :=
  be_bytes 4 (ha s) ++ be_bytes 4 (hb s) ++ be_bytes 4 (hc s) ++ be_bytes 4 (hd s)
  ++ be_bytes 4 (he s) ++ be_bytes 4 (hf s) ++ be_bytes 4 (hg s) ++ be_bytes 4 (hh s).

Definition digest (msg : bytes) : bytes :=
  state_bytes (fold_left compress (chunks 64 (pad msg)) initial_state).

End Sha256.

(** ** HMAC-SHA-256 (RFC 2104), as computed by [ring::hmac::sign] *)
Definition hmac_block_len : nat := 64.

Definition ring_hmac_sign (key message : bytes) : bytes :=
  let k := if Nat.ltb hmac_block_len (length key) then Sha256.digest key else key in
  let k0 := k ++ repeat x00 (hmac_block_len - length k) in
  Sha256.digest (map (byte_xor x5c) k0
                 ++ Sha256.digest (map (byte_xor x36) k0 ++ message)).

(** ** AES-256 (FIPS 197) *)
Module Aes.

(** Multiplication by x in GF(2^8) modulo x^8 + x^4 + x^3 + x + 1. *)
Definition xtime (b : Z) : Z :=
  let s := Z.land (Z.shiftl b 1) 255 in
  if Z.testbit b 7 then Z.lxor s 27 else s.

Fixpoint gmul_loop (n : nat) (a b acc : Z) : Z :=
  match n with
  | O => acc
  | S n' =>
      gmul_loop n' (xtime a) (Z.shiftr b 1)
                (if Z.testbit b 0 then Z.lxor acc a else acc)
  end.

Definition gmul (a b : Z) : Z := gmul_loop 8 a b 0.

(** Inverse in GF(2^8) as x^254 (so 0 is sent to 0). *)
Definition ginv (x : Z) : Z :=
  let x2 := gmul x x in
  let x4 := gmul x2 x2 in
  let x8 := gmul x4 x4 in
  let x16 := gmul x8 x8 in
  let x32 := gmul x16 x16 in
  let x64 := gmul x32 x32 in
  let x128 := gmul x64 x64 in
  gmul (gmul (gmul (gmul (gmul (gmul x2 x4) x8) x16) x32) x64) x128.

Definition rotl8 (x : Z) (n : Z) : Z :=
  Z.land (Z.lor (Z.shiftl x n) (Z.shiftr x (8 - n))) 255.

(** The S-box: inversion followed by the affine map. *)
Definition sbox (x : Z) : Z :=
  let i := ginv x in
  Z.lxor (Z.lxor (Z.lxor (Z.lxor (Z.lxor i (rotl8 i 1)) (rotl8 i 2)) (rotl8 i 3))
                 (rotl8 i 4)) 99.

(** Key expansion for a 256-bit key (Nk = 8, Nr = 14): 60 words of
    4 bytes, built newest-first. *)
Definition rcon (i : nat) : Z := Z.shiftl 1 (Z.of_nat i - 1).

Fixpoint expand_words (n i : nat) (rev_ws : list (list Z)) : list (list Z) :=
  match n with
  | O => rev_ws
  | S n' =>
      let temp := nth 0 rev_ws [] in
      let temp' :=
        if Nat.eqb (Nat.modulo i 8) 0 then
          match map sbox (skipn 1 temp ++ firstn 1 temp) with
          | b0 :: rest => Z.lxor b0 (rcon (Nat.div i 8)) :: rest
          | [] => []
          end
        else if Nat.eqb (Nat.modulo i 8) 4 then map sbox temp
        else temp in
      let w := map (fun '(a, b) => Z.lxor a b) (combine (nth 7 rev_ws []) temp') in
      expand_words n' (S i) (w :: rev_ws)
  end.

Definition key_expansion (key : list Z) : list (list Z) :=
  map (@concat Z) (chunks 4 (rev (expand_words 52 8 (rev (chunks 4 key))))).

(** The state is 16 bytes, column-major: byte [r] of column [c] is at
    index [4 * c + r]. *)
Definition add_round_key (s rk : list Z) : list Z :=
  map (fun '(a, b) => Z.lxor a b) (combine s rk).

Definition sub_bytes (s : list Z) : list Z := map sbox s.

Definition shift_rows (s : list Z) : list Z :=
  map (fun i => let c := Nat.div i 4 in let r := Nat.modulo i 4 in
                nth (4 * Nat.modulo (c + r) 4 + r) s 0) (seq 0 16).

Definition mix_column (a0 a1 a2 a3 : Z) : list Z :=
  [Z.lxor (Z.lxor (gmul 2 a0) (gmul 3 a1)) (Z.lxor a2 a3);
   Z.lxor (Z.lxor a0 (gmul 2 a1)) (Z.lxor (gmul 3 a2) a3);
   Z.lxor (Z.lxor a0 a1) (Z.lxor (gmul 2 a2) (gmul 3 a3));
   Z.lxor (Z.lxor (gmul 3 a0) a1) (Z.lxor a2 (gmul 2 a3))].

Definition mix_columns (s : list Z) : list Z :=
  flat_map (fun c => mix_column (nth (4 * c) s 0) (nth (4 * c + 1) s 0)
                                (nth (4 * c + 2) s 0) (nth (4 * c + 3) s 0))
           (seq 0 4).

Definition cipher_rounds (round_keys : list (list Z)) (s : list Z) : list Z :=
  let s := add_round_key s (nth 0 round_keys []) in
  let s := fold_left (fun s r => add_round_key (mix_columns (shift_rows (sub_bytes s)))
                                               (nth r round_keys []))
                     (seq 1 13) s in
  add_round_key (shift_rows (sub_bytes s)) (nth 14 round_keys []).

(** Encryption of one 16-byte block under the expanded key. *)
Definition encrypt_block (round_keys : list (list Z)) (block : bytes) : bytes :=
  let s := cipher_rounds round_keys (map byte_to_Z block) in
  map (fun i => byte_of_Z (nth i s 0)) (seq 0 16).

End Aes.

(** ** AES-256-GCM (NIST SP 800-38D), as [ring::aead::AES_256_GCM] *)
Module Gcm.

Definition block_len : nat := 16.
Definition tag_len : nat := 16.

(** [ring]'s per-nonce input limit: [(2^32 - 2) * 16] bytes. *)
Definition max_input_len : Z := (2 ^ 32 - 2) * 16.

(** Multiplication in GF(2^128), bit-reflected, per SP 800-38D 6.3. *)
Definition gf128_r : Z := Z.shiftl 225 120.

Fixpoint gf128_mul_loop (n : nat) (x : Z) (z v : Z) : Z :=
  match n with
  | O => z
  | S n' =>
      let z' := if Z.testbit x (Z.of_nat n') then Z.lxor z v else z in
      let v' := if Z.testbit v 0 then Z.lxor (Z.shiftr v 1) gf128_r
                else Z.shiftr v 1 in
      gf128_mul_loop n' x z' v'
  end.

Definition gf128_mul (x y : Z) : Z := gf128_mul_loop 128 x 0 y.

(** A byte string as GHASH input blocks, the last one zero padded. *)
Definition to_blocks (data : bytes) : list Z :=
  map (fun c => be_value (c ++ repeat x00 (block_len - length c)))
      (chunks block_len data).

Definition ghash (h : Z) (blocks : list Z) : Z :=
  fold_left (fun y x => gf128_mul (Z.lxor y x) h) blocks 0.

(** Increment of the low 32 bits of a counter block. *)
Definition inc32 (cb : Z) : Z :=
  Z.lor (Z.land cb (Z.shiftl (Z.ones 96) 32)) (Z.land (cb + 1) (Z.ones 32)).

Fixpoint gctr_fuel (fuel : nat) (rk : list (list Z)) (cb : Z) (x : bytes) : bytes :=
  match fuel with
  | O => []
  | S fuel' =>
      match x with
      | [] => []
      | _ => bytes_xor (firstn block_len x) (Aes.encrypt_block rk (be_bytes 16 cb))
             ++ gctr_fuel fuel' rk (inc32 cb) (skipn block_len x)
      end
  end.

Definition gctr (rk : list (list Z)) (cb : Z) (x : bytes) : bytes :=
  gctr_fuel (length x) rk cb x.

(** The pre-counter block for a 96-bit nonce. *)
Definition j0 (nonce : bytes) : Z := be_value (nonce ++ [x00; x00; x00; x01]).

Definition hash_subkey (rk : list (list Z)) : Z :=
  be_value (Aes.encrypt_block rk (repeat x00 16)).

(** The authentication tag of a ciphertext. *)
Definition tag (key nonce aad ciphertext : bytes) : bytes :=
  let rk := Aes.key_expansion (map byte_to_Z key) in
  let s := ghash (hash_subkey rk)
                 (to_blocks aad ++ to_blocks ciphertext
                  ++ [Z.lor (Z.shiftl (8 * Z.of_nat (length aad)) 64)
                            (8 * Z.of_nat (length ciphertext))]) in
  bytes_xor (Aes.encrypt_block rk (be_bytes 16 (j0 nonce))) (be_bytes 16 s).

(** The keystream part: encryption and decryption alike. *)
Definition ctr (key nonce data : bytes) : bytes :=
  gctr (Aes.key_expansion (map byte_to_Z key)) (inc32 (j0 nonce)) data.

End Gcm.

(** ** The [ring::aead] interface used by the crate *)

(** [UnboundKey::new(&AES_256_GCM, key)]: fails unless the key has 32 bytes. *)
Definition aead_key := bytes.

Definition unbound_key_new (key : bytes) : option aead_key :=
  if Nat.eqb (length key) 32 then Some key else None.

(** [LessSafeKey::seal_in_place_append_tag]: [in_out] becomes
    [ciphertext ++ tag]; inputs over the per-nonce limit are refused. *)
Definition seal_in_place_append_tag (key : aead_key) (nonce aad in_out : bytes)
  : option bytes :=
  if Gcm.max_input_len <? Z.of_nat (length in_out) then None
  else
    let c := Gcm.ctr key nonce in_out in
    Some (c ++ Gcm.tag key nonce aad c).

(** [LessSafeKey::open_in_place]: [in_out] is [ciphertext ++ tag]. On
    success the buffer holds the plaintext followed by the received tag, and
    the length of the plaintext slice is returned with it. *)
Definition open_in_place (key : aead_key) (nonce aad in_out : bytes)
  : option (bytes * nat) :=
  if Nat.ltb (length in_out) Gcm.tag_len then None
  else
    let ciphertext_len := (length in_out - Gcm.tag_len)%nat in
    if Gcm.max_input_len <? Z.of_nat ciphertext_len then None
    else
      let ciphertext := firstn ciphertext_len in_out in
      let received_tag := skipn ciphertext_len in_out in
      if bytes_eqb (Gcm.tag key nonce aad ciphertext) received_tag
      then Some (Gcm.ctr key nonce ciphertext ++ received_tag, ciphertext_len)
      else None.

(** ** The crate: [crypto.rs] *)

Definition NONCE_LENGTH : nat := 12.
Definition AUTH_TAG_LENGTH : nat := 16.

(** Protocol specific string for encryption *)
Definition ENCRYPTION_KEY_STRING : bytes := list_byte_of_string "ilp_stream_encryption".
(** Protocol specific string for generating fulfillments *)
Definition FULFILLMENT_GENERATION_STRING : bytes :=
  list_byte_of_string "ilp_stream_fulfillment".

(** [hmac_sha256]: the 32-byte output of [hmac::sign] copied into a
    [[u8; 32]]. *)
Definition hmac_sha256 (key message : bytes) : bytes := ring_hmac_sign key message.

Definition generate_fulfillment (shared_secret data : bytes) : bytes :=
  let key := hmac_sha256 shared_secret FULFILLMENT_GENERATION_STRING in
  hmac_sha256 key data.

Definition hash_sha256 (preimage : bytes) : bytes := Sha256.digest preimage.

Definition generate_condition (shared_secret data : bytes) : bytes :=
  let fulfillment := generate_fulfillment shared_secret data in
  hash_sha256 fulfillment.

(** *** Effects: panics and the log of cryptographic calls *)

Inductive crypto_call : Type :=
| CallHmacSha256 (key message : bytes)
| CallUnboundKeyNew (key : bytes)
| CallSeal (nonce in_out : bytes)
| CallOpen (nonce in_out : bytes).

(** A computation reads the log so far and either panics ([None]) or
    returns a value with the extended log. *)
Definition M (A : Type) : Type := list crypto_call -> option (A * list crypto_call).

Definition ret {A} (a : A) : M A := fun log => Some (a, log).

Definition bind {A B} (m : M A) (f : A -> M B) : M B :=
  fun log => match m log with
             | Some (a, log') => f a log'
             | None => None
             end.

Definition panic {A} (msg : string) : M A := fun _ => None.

Definition record (c : crypto_call) : M unit := fun log => Some (tt, log ++ [c]).

Notation "x <- m ;; k" := (bind m (fun x => k))
  (at level 61, m at next level, right associativity).
Notation "' p <- m ;; k" := (bind m (fun x => match x with p => k end))
  (at level 61, p pattern, m at next level, right associativity).
Notation "m ;;; k" := (bind m (fun _ => k)) (at level 61, right associativity).

(** [Option::expect] *)
Definition expect {A} (msg : string) (o : option A) : M A :=
  match o with
  | Some a => ret a
  | None => panic msg
  end.

Inductive result (T E : Type) : Type :=
| Ok (t : T)
| Err (e : E).
Arguments Ok {T E} t.
Arguments Err {T E} e.

(** *** [BytesMut] *)

(** [split_to(at)]: returns [self[..at]], [self] keeps [self[at..]];
    panics when [at > len]. The pair is (returned, remaining self). *)
Definition split_to (at_ : nat) (buf : bytes) : M (bytes * bytes) :=
  if Nat.leb at_ (length buf) then ret (firstn at_ buf, skipn at_ buf)
  else panic "split_to out of bounds".

(** [split_off(at)]: [self] keeps [self[..at]], returns [self[at..]];
    panics when [at > len]. The pair is (remaining self, returned). *)
Definition split_off (at_ : nat) (buf : bytes) : M (bytes * bytes) :=
  if Nat.leb at_ (length buf) then ret (firstn at_ buf, skipn at_ buf)
  else panic "split_off out of bounds".

(** [self.unsplit(other)]: [other] is appended to [self]. *)
Definition unsplit (self other : bytes) : bytes := self ++ other.

Definition truncate (len : nat) (buf : bytes) : bytes := firstn len buf.

(** [<[u8; N]>::copy_from_slice]: panics unless the lengths agree. *)
Definition copy_from_slice (n : nat) (src : bytes) : M bytes :=
  if Nat.eqb (length src) n then ret src
  else panic "source slice length does not match destination slice length".

(** [usize] subtraction: an underflow panics. *)
Definition usize_sub (a b : nat) : M nat :=
  if Nat.leb b a then ret (a - b)%nat else panic "attempt to subtract with overflow".

(** *** The calls to [hmac_sha256] and [ring::aead], logged *)

Definition call_hmac_sha256 (key message : bytes) : M bytes :=
  record (CallHmacSha256 key message) ;;; ret (hmac_sha256 key message).

Definition call_unbound_key_new (msg : string) (key : bytes) : M aead_key :=
  record (CallUnboundKeyNew key) ;;; expect msg (unbound_key_new key).

Definition call_seal (key : aead_key) (nonce aad in_out : bytes) : M bytes :=
  record (CallSeal nonce in_out) ;;;
  match seal_in_place_append_tag key nonce aad in_out with
  | Some buf => ret buf
  | None => panic "Error encrypting"
  end.

Definition call_open (key : aead_key) (nonce aad in_out : bytes) : M (option (bytes * nat)) :=
  record (CallOpen nonce in_out) ;;; ret (open_in_place key nonce aad in_out).

(** *** [encrypt_with_nonce], [encrypt], [decrypt] *)

Definition encrypt_with_nonce (shared_secret plaintext nonce : bytes) : M bytes :=
  key <- call_hmac_sha256 shared_secret ENCRYPTION_KEY_STRING ;;
  key <- call_unbound_key_new "Failed to create a new sealing key for encrypting data!" key ;;
  let additional_data := [] in
  plaintext <- call_seal key nonce additional_data plaintext ;;
  (* Rearrange the bytes so that the tag goes first *)
  auth_tag_position <- usize_sub (length plaintext) AUTH_TAG_LENGTH ;;
  '(plaintext, tag_data) <- split_off auth_tag_position plaintext ;;
  let tag_data := unsplit tag_data plaintext in
  (* The format is `nonce, auth tag, data`, in that order *)
  let nonce_tag_data := unsplit nonce tag_data in
  ret nonce_tag_data.

(** [encrypt] fills a 12-byte nonce from [SystemRandom]; [random_fill] is
    the outcome of that call: the bytes written, or [None] when the
    system's random source fails. *)
Definition encrypt (random_fill : option bytes) (shared_secret plaintext : bytes) : M bytes :=
  nonce <- expect "Failed to securely generate a random nonce!" random_fill ;;
  encrypt_with_nonce shared_secret plaintext nonce.

Definition decrypt (shared_secret ciphertext : bytes) : M (result bytes unit) :=
  (* ciphertext must include at least a nonce and tag *)
  if Nat.ltb (length ciphertext) AUTH_TAG_LENGTH then ret (Err tt)
  else
    key <- call_hmac_sha256 shared_secret ENCRYPTION_KEY_STRING ;;
    key <- call_unbound_key_new "Failed to create a new opening key for decrypting data!" key ;;
    '(nonce_part, ciphertext) <- split_to NONCE_LENGTH ciphertext ;;
    nonce <- copy_from_slice NONCE_LENGTH nonce_part ;;
    let additional_data := [] in
    '(auth_tag, ciphertext) <-
      split_to (Nat.min AUTH_TAG_LENGTH (length ciphertext)) ciphertext ;;
    (* Ring expects the tag to come after the data *)
    let ciphertext := unsplit ciphertext auth_tag in
    opened <- call_open key nonce additional_data ciphertext ;;
    match opened with
    | None => ret (Err tt)
    | Some (ciphertext, length) => ret (Ok (truncate length ciphertext))
    end.

(** The value computed, without the log. *)
Definition run {A} (m : M A) : option A := option_map fst (m []).

(** ** The crate's test vectors *)

Definition test_secret : bytes :=
  map byte_of_Z [126; 219; 117; 93; 118; 248; 249; 211; 20; 211; 65; 110; 237; 80; 253; 179;
                 81; 146; 229; 67; 231; 49; 92; 127; 254; 230; 144; 102; 103; 166; 150; 36].

Definition test_data : bytes :=
  map byte_of_Z [119; 248; 213; 234; 63; 200; 224; 140; 212; 222; 105; 159; 246; 203; 66; 155;
                 151; 172; 68; 24; 76; 232; 90; 10; 237; 146; 189; 73; 248; 196; 177; 108;
                 115; 223].

Definition test_fulfillment : bytes :=
  map byte_of_Z [24; 6; 56; 73; 229; 236; 88; 227; 82; 112; 152; 49; 152; 73; 182; 183;
                 198; 7; 233; 124; 119; 65; 13; 68; 54; 108; 120; 193; 59; 226; 107; 39].

Definition test_plaintext : bytes := map byte_of_Z [99; 0; 12; 255; 77; 31].

(** [CIPHERTEXT] of [encrypt_decrypt_test]: the same bytes as [DATA]. *)
Definition test_envelope : bytes := test_data.

Definition test_nonce : bytes :=
  map byte_of_Z [119; 248; 213; 234; 63; 200; 224; 140; 212; 222; 105; 159].

(** [test_envelope] with the first bit of its tag flipped. *)
Definition forged_envelope : bytes :=
  firstn 12 test_envelope ++ [byte_xor (nth 12 test_envelope x00) x01]
  ++ skipn 13 test_envelope.

(** A plaintext one byte over [ring]'s AES-GCM per-nonce limit
    (64 GiB); it is never evaluated. *)
Definition oversized_plaintext : bytes :=
  repeat x00 (Z.to_nat (Gcm.max_input_len + 1)).

(** * Properties *)

(** ** Lengths and xor *)

Lemma be_bytes_length (n : nat) (z : Z) : length (be_bytes n z) = n.
Proof. unfold be_bytes. now rewrite length_map, length_seq. Qed.

Lemma digest_length (msg : bytes) : length (Sha256.digest msg) = 32%nat.
Proof.
  unfold Sha256.digest, Sha256.state_bytes.
  now rewrite !length_app, !be_bytes_length.
Qed.

Lemma hmac_sha256_length (key message : bytes) : length (hmac_sha256 key message) = 32%nat.
Proof. apply digest_length. Qed.

Lemma encrypt_block_length (rk : list (list Z)) (b : bytes) :
  length (Aes.encrypt_block rk b) = 16%nat.
Proof. unfold Aes.encrypt_block. now rewrite length_map, length_seq. Qed.

Lemma bytes_xor_length (xs ks : bytes) :
  length (bytes_xor xs ks) = Nat.min (length xs) (length ks).
Proof.
  revert ks; induction xs as [|x xs IH]; intros [|k ks]; simpl; auto.
Qed.

Lemma tag_length (key nonce aad c : bytes) : length (Gcm.tag key nonce aad c) = 16%nat.
Proof.
  unfold Gcm.tag. now rewrite bytes_xor_length, encrypt_block_length, be_bytes_length.
Qed.

Lemma xor_bits8_involutive (x y : bits8) : xor_bits8 (xor_bits8 x y) y = x.
Proof.
  destruct x as (x0 & x1 & x2 & x3 & x4 & x5 & x6 & x7).
  destruct y as (y0 & y1 & y2 & y3 & y4 & y5 & y6 & y7).
  cbn. now rewrite !xorb_assoc, !xorb_nilpotent, !xorb_false_r.
Qed.

Lemma byte_xor_involutive (a b : byte) : byte_xor (byte_xor a b) b = a.
Proof.
  unfold byte_xor. rewrite Byte.to_bits_of_bits, xor_bits8_involutive.
  apply Byte.of_bits_to_bits.
Qed.

Lemma bytes_xor_involutive (xs ks : bytes) :
  (length xs <= length ks)%nat -> bytes_xor (bytes_xor xs ks) ks = xs.
Proof.
  revert ks; induction xs as [|x xs IH]; intros [|k ks] Hle; simpl in *; try lia; auto.
  rewrite byte_xor_involutive, IH by lia. reflexivity.
Qed.

Lemma bytes_eqb_refl (xs : bytes) : bytes_eqb xs xs = true.
Proof.
  induction xs as [|x xs IH]; simpl; auto.
  now rewrite Byte.byte_dec_lb, IH.
Qed.

(** ** GCTR *)

Lemma gctr_fuel_nil fuel rk cb : Gcm.gctr_fuel fuel rk cb [] = [].
Proof. destruct fuel; reflexivity. Qed.

Lemma gctr_fuel_length fuel rk cb (x : bytes) :
  (length x <= fuel)%nat -> length (Gcm.gctr_fuel fuel rk cb x) = length x.
Proof.
  revert cb x; induction fuel as [|fuel IH]; intros cb x Hle.
  - destruct x; simpl in *; [reflexivity | lia].
  - destruct x as [|b x']; [reflexivity|].
    cbn [Gcm.gctr_fuel].
    rewrite length_app, bytes_xor_length, encrypt_block_length, length_firstn, IH.
    + rewrite length_skipn. unfold Gcm.block_len. simpl length. lia.
    + rewrite length_skipn. unfold Gcm.block_len. simpl length in *. lia.
Qed.

Lemma gctr_length rk cb (x : bytes) : length (Gcm.gctr rk cb x) = length x.
Proof. apply gctr_fuel_length; lia. Qed.

Lemma first_block_split (A B : bytes) :
  (length A <= 16)%nat -> (length A = 16%nat \/ B = []) ->
  firstn 16 (A ++ B) = A /\ skipn 16 (A ++ B) = B.
Proof.
  intros Hle [HA | ->].
  - rewrite firstn_app, skipn_app, HA, Nat.sub_diag, firstn_O, skipn_O.
    rewrite <- HA, firstn_all, skipn_all, app_nil_r. auto.
  - rewrite app_nil_r, firstn_all2, skipn_all2 by lia. auto.
Qed.

Lemma gctr_fuel_involutive fuel fuel2 rk cb (x : bytes) :
  (length x <= fuel)%nat -> (length x <= fuel2)%nat ->
  Gcm.gctr_fuel fuel2 rk cb (Gcm.gctr_fuel fuel rk cb x) = x.
Proof.
  revert fuel2 cb x; induction fuel as [|fuel IH]; intros fuel2 cb x H1 H2.
  - destruct x; simpl in *; [apply gctr_fuel_nil | lia].
  - destruct x as [|b x']; [cbn; apply gctr_fuel_nil|].
    destruct fuel2 as [|fuel2]; [simpl in H2; lia|].
    cbn [Gcm.gctr_fuel]. unfold Gcm.block_len.
    set (x := b :: x') in *.
    set (E := Aes.encrypt_block rk (be_bytes 16 cb)).
    set (A := bytes_xor (firstn 16 x) E).
    set (B := Gcm.gctr_fuel fuel rk (Gcm.inc32 cb) (skipn 16 x)).
    assert (HA : length A = Nat.min 16 (length x)).
    { unfold A. rewrite bytes_xor_length, length_firstn. unfold E.
      rewrite encrypt_block_length. lia. }
    assert (Hx : (1 <= length x)%nat) by (unfold x; simpl; lia).
    destruct (first_block_split A B) as [Hf Hs].
    { lia. }
    { destruct (Nat.le_gt_cases 16 (length x)) as [Hge | Hlt]; [left; lia | right].
      unfold B. rewrite skipn_all2 by lia. apply gctr_fuel_nil. }
    destruct (A ++ B) as [|c rest] eqn:EAB.
    { apply (f_equal (@length byte)) in EAB. rewrite length_app in EAB. simpl in EAB. lia. }
    cbv beta iota. rewrite Hf, Hs. unfold A, B.
    rewrite bytes_xor_involutive.
    2:{ rewrite length_firstn. unfold E. rewrite encrypt_block_length. lia. }
    rewrite IH.
    + apply firstn_skipn.
    + rewrite length_skipn. simpl in H1 |- *. lia.
    + rewrite length_skipn. simpl in H2 |- *. lia.
Qed.

Lemma gctr_involutive rk cb (x : bytes) : Gcm.gctr rk cb (Gcm.gctr rk cb x) = x.
Proof.
  unfold Gcm.gctr at 1. rewrite gctr_length. apply gctr_fuel_involutive; lia.
Qed.

Lemma ctr_involutive (key nonce p : bytes) : Gcm.ctr key nonce (Gcm.ctr key nonce p) = p.
Proof. apply gctr_involutive. Qed.

Lemma ctr_length (key nonce p : bytes) : length (Gcm.ctr key nonce p) = length p.
Proof. apply gctr_length. Qed.

(** ** The [ring] calls on the crate's inputs *)

Lemma unbound_key_new_hmac (key message : bytes) :
  unbound_key_new (hmac_sha256 key message) = Some (hmac_sha256 key message).
Proof. unfold unbound_key_new. now rewrite hmac_sha256_length. Qed.

Lemma seal_within_limit (key nonce aad p : bytes) :
  Z.of_nat (length p) <= Gcm.max_input_len ->
  seal_in_place_append_tag key nonce aad p
  = Some (Gcm.ctr key nonce p ++ Gcm.tag key nonce aad (Gcm.ctr key nonce p)).
Proof.
  intros H. unfold seal_in_place_append_tag.
  destruct (Z.ltb_spec Gcm.max_input_len (Z.of_nat (length p))); [lia | reflexivity].
Qed.

Lemma seal_beyond_limit (key nonce aad p : bytes) :
  Gcm.max_input_len < Z.of_nat (length p) ->
  seal_in_place_append_tag key nonce aad p = None.
Proof.
  intros H. unfold seal_in_place_append_tag.
  destruct (Z.ltb_spec Gcm.max_input_len (Z.of_nat (length p))); [reflexivity | lia].
Qed.

Ltac unfold_monad :=
  unfold call_hmac_sha256, call_unbound_key_new, call_seal, call_open,
         bind, record, ret, expect in *;
  cbv beta iota.

(** ** [encrypt_with_nonce], step by step *)

Lemma encrypt_with_nonce_within_limit (s p n : bytes) log :
  Z.of_nat (length p) <= Gcm.max_input_len ->
  encrypt_with_nonce s p n log =
  Some (n ++ Gcm.tag (hmac_sha256 s ENCRYPTION_KEY_STRING) n []
                     (Gcm.ctr (hmac_sha256 s ENCRYPTION_KEY_STRING) n p)
          ++ Gcm.ctr (hmac_sha256 s ENCRYPTION_KEY_STRING) n p,
        log ++ [CallHmacSha256 s ENCRYPTION_KEY_STRING;
                CallUnboundKeyNew (hmac_sha256 s ENCRYPTION_KEY_STRING);
                CallSeal n p]).
Proof.
  intros H. unfold encrypt_with_nonce. unfold_monad.
  rewrite unbound_key_new_hmac. cbv beta iota delta [ret].
  rewrite seal_within_limit by exact H. cbv beta iota.
  set (k := hmac_sha256 s ENCRYPTION_KEY_STRING).
  set (c := Gcm.ctr k n p). set (t := Gcm.tag k n [] c).
  assert (Ht : length t = 16%nat) by apply tag_length.
  unfold usize_sub, AUTH_TAG_LENGTH.
  rewrite length_app, Ht, Nat.add_sub.
  replace (Nat.leb 16 (length c + 16)) with true
    by (symmetry; apply Nat.leb_le; lia).
  cbv beta iota delta [ret]. unfold split_off.
  replace (Nat.leb (length c) (length (c ++ t))) with true
    by (symmetry; apply Nat.leb_le; rewrite length_app; lia).
  cbv beta iota delta [ret].
  rewrite firstn_app, skipn_app, Nat.sub_diag, firstn_all, skipn_all, firstn_O, skipn_O,
    app_nil_r.
  unfold unsplit. rewrite <- !app_assoc. reflexivity.
Qed.

Lemma encrypt_with_nonce_beyond_limit (s p n : bytes) log :
  Gcm.max_input_len < Z.of_nat (length p) ->
  encrypt_with_nonce s p n log = None.
Proof.
  intros H. unfold encrypt_with_nonce. unfold_monad.
  rewrite unbound_key_new_hmac. cbv beta iota delta [ret].
  rewrite seal_beyond_limit by exact H. reflexivity.
Qed.

(** ** [decrypt], step by step *)

Lemma decrypt_short (s env : bytes) log :
  (length env < AUTH_TAG_LENGTH)%nat -> decrypt s env log = Some (Err tt, log).
Proof.
  intros H. unfold decrypt.
  replace (Nat.ltb (length env) AUTH_TAG_LENGTH) with true
    by (symmetry; apply Nat.ltb_lt; exact H).
  reflexivity.
Qed.

(** From 16 bytes on, [decrypt] derives the key, takes the nonce, takes
    [min 16 remaining] bytes as the tag, and hands [body ++ tag] to
    [open_in_place]; its answer decides the result. *)
Lemma decrypt_long (s env : bytes) log :
  (AUTH_TAG_LENGTH <= length env)%nat ->
  let key := hmac_sha256 s ENCRYPTION_KEY_STRING in
  let nonce := firstn NONCE_LENGTH env in
  let rest := skipn NONCE_LENGTH env in
  let tag := firstn (Nat.min AUTH_TAG_LENGTH (length rest)) rest in
  let body := skipn (Nat.min AUTH_TAG_LENGTH (length rest)) rest in
  decrypt s env log =
  Some (match open_in_place key nonce [] (body ++ tag) with
        | None => Err tt
        | Some (buf, n) => Ok (firstn n buf)
        end,
        log ++ [CallHmacSha256 s ENCRYPTION_KEY_STRING; CallUnboundKeyNew key;
                CallOpen nonce (body ++ tag)]).
Proof.
  intros H key nonce rest tag body. unfold decrypt.
  replace (Nat.ltb (length env) AUTH_TAG_LENGTH) with false
    by (symmetry; apply Nat.ltb_ge; exact H).
  unfold_monad.
  rewrite unbound_key_new_hmac. cbv beta iota delta [ret].
  unfold split_to at 1.
  replace (Nat.leb NONCE_LENGTH (length env)) with true
    by (symmetry; apply Nat.leb_le; unfold NONCE_LENGTH, AUTH_TAG_LENGTH in *; lia).
  cbv beta iota delta [ret]. unfold copy_from_slice.
  replace (Nat.eqb (length (firstn NONCE_LENGTH env)) NONCE_LENGTH) with true
    by (symmetry; apply Nat.eqb_eq; rewrite length_firstn;
        unfold NONCE_LENGTH, AUTH_TAG_LENGTH in *; lia).
  cbv beta iota delta [ret]. unfold split_to.
  replace (Nat.leb (Nat.min AUTH_TAG_LENGTH (length (skipn NONCE_LENGTH env)))
                   (length (skipn NONCE_LENGTH env))) with true
    by (symmetry; apply Nat.leb_le; lia).
  cbv beta iota delta [ret]. unfold unsplit.
  fold nonce rest. fold tag body. fold key.
  rewrite <- !app_assoc. cbn [app].
  destruct (open_in_place key nonce [] (body ++ tag)) as [[buf n]|];
    reflexivity.
Qed.

(** ** The model against the crate's tests *)

(** [it_encrypts_to_same_as_javascript] *)
Example encrypt_matches_javascript :
  run (encrypt_with_nonce test_secret test_plaintext test_nonce) = Some test_envelope.
Proof. vm_compute. reflexivity. Qed.

(** [it_decrypts_javascript_ciphertext] *)
Example decrypt_matches_javascript :
  run (decrypt test_secret test_envelope) = Some (Ok test_plaintext).
Proof. vm_compute. reflexivity. Qed.

(** ** Helpers for the envelope produced by [encrypt] *)

Lemma open_sealed (key nonce c : bytes) :
  Z.of_nat (length c) <= Gcm.max_input_len ->
  open_in_place key nonce [] (c ++ Gcm.tag key nonce [] c)
  = Some (Gcm.ctr key nonce c ++ Gcm.tag key nonce [] c, length c).
Proof.
  intros H. unfold open_in_place, Gcm.tag_len.
  set (t := Gcm.tag key nonce [] c).
  assert (Ht : length t = 16%nat) by apply tag_length.
  rewrite length_app, Ht, Nat.add_sub.
  replace (Nat.ltb (length c + 16) 16) with false by (symmetry; apply Nat.ltb_ge; lia).
  destruct (Z.ltb_spec Gcm.max_input_len (Z.of_nat (length c))); [lia|].
  rewrite firstn_app, skipn_app, Nat.sub_diag, firstn_all, skipn_all, firstn_O, skipn_O,
    app_nil_r.
  unfold t. rewrite bytes_eqb_refl. reflexivity.
Qed.

Lemma oversized_plaintext_length :
  Z.of_nat (length oversized_plaintext) = Gcm.max_input_len + 1.
Proof.
  unfold oversized_plaintext. rewrite repeat_length, Z2Nat.id; [reflexivity|].
  unfold Gcm.max_input_len. lia.
Qed.

(** * Claims *)

(** ** Round trip *)

(** C1 (amended): for every shared secret, every 12-byte nonce produced by
    the random source and every plaintext within AES-GCM's per-nonce limit
    of [2^36 - 32] bytes, [decrypt] of the envelope [encrypt] returns
    succeeds and gives back the plaintext. *)
Theorem encrypt_decrypt_roundtrip (s p n : bytes) log :
  length n = NONCE_LENGTH ->
  Z.of_nat (length p) <= Gcm.max_input_len ->
  exists log', bind (encrypt (Some n) s p) (decrypt s) log = Some (Ok p, log').
Proof.
  intros Hn Hp.
  unfold encrypt, expect, bind at 1 2, ret. cbv beta iota.
  rewrite encrypt_with_nonce_within_limit by exact Hp.
  set (k := hmac_sha256 s ENCRYPTION_KEY_STRING).
  set (c := Gcm.ctr k n p). set (t := Gcm.tag k n [] c).
  assert (Ht : length t = 16%nat) by apply tag_length.
  assert (Hc : length c = length p) by apply ctr_length.
  rewrite decrypt_long.
  2:{ rewrite !length_app, Hn, Ht. unfold NONCE_LENGTH, AUTH_TAG_LENGTH. lia. }
  cbv zeta.
  assert (Hnonce : firstn NONCE_LENGTH (n ++ t ++ c) = n).
  { rewrite <- Hn, firstn_app, Nat.sub_diag, firstn_all, firstn_O, app_nil_r.
    reflexivity. }
  assert (Hrest : skipn NONCE_LENGTH (n ++ t ++ c) = t ++ c).
  { rewrite <- Hn, skipn_app, Nat.sub_diag, skipn_all, skipn_O. reflexivity. }
  rewrite Hnonce, Hrest.
  replace (Nat.min AUTH_TAG_LENGTH (length (t ++ c))) with (length t)
    by (rewrite length_app, Ht; unfold AUTH_TAG_LENGTH; lia).
  rewrite firstn_app, skipn_app, Nat.sub_diag, firstn_all, skipn_all, firstn_O, skipn_O,
    app_nil_r. cbn [app].
  unfold t. rewrite open_sealed by (rewrite Hc; exact Hp).
  eexists. f_equal. f_equal. f_equal.
  rewrite firstn_app, ctr_length, Nat.sub_diag, firstn_O, app_nil_r.
  rewrite firstn_all2 by (rewrite ctr_length; lia).
  unfold c. apply ctr_involutive.
Qed.

Lemma encrypt_beyond_limit (s p n : bytes) log :
  Gcm.max_input_len < Z.of_nat (length p) -> encrypt (Some n) s p log = None.
Proof.
  intros H. unfold encrypt, expect, bind, ret. cbv beta iota.
  apply encrypt_with_nonce_beyond_limit. exact H.
Qed.

Lemma encrypt_decrypt_roundtrip_witness :
  length test_nonce = NONCE_LENGTH /\
  Z.of_nat (length test_plaintext) <= Gcm.max_input_len /\
  exists log', bind (encrypt (Some test_nonce) test_secret test_plaintext)
                    (decrypt test_secret) [] = Some (Ok test_plaintext, log').
Proof.
  split; [reflexivity|]. split; [vm_compute; congruence|].
  apply encrypt_decrypt_roundtrip; [reflexivity | vm_compute; congruence].
Defined.

(** C1, as stated for every plaintext, fails: a plaintext over [ring]'s
    per-nonce limit makes [seal_in_place_append_tag] fail, and
    [encrypt_with_nonce] panics ("Error encrypting"), so there is no
    envelope to decrypt. *)
Lemma encrypt_decrypt_roundtrip_counterexample :
  run (bind (encrypt (Some test_nonce) test_secret oversized_plaintext) (decrypt test_secret))
  <> Some (Ok oversized_plaintext).
Proof.
  unfold run, bind at 1.
  rewrite encrypt_beyond_limit by (rewrite oversized_plaintext_length; lia).
  intro H. discriminate H.
Qed.

(** ** Wire format *)

(** C2 (amended): for every shared secret, 12-byte nonce and plaintext
    within AES-GCM's per-nonce limit, [encrypt] returns the nonce, then the
    16-byte GCM tag, then the ciphertext body, as long as the plaintext;
    its first 12 bytes are the nonce and its length is the plaintext's
    plus 28. *)
Theorem encrypt_wire_format (s p n : bytes) log :
  length n = NONCE_LENGTH ->
  Z.of_nat (length p) <= Gcm.max_input_len ->
  exists tag body log',
    encrypt (Some n) s p log = Some (n ++ tag ++ body, log') /\
    body = Gcm.ctr (hmac_sha256 s ENCRYPTION_KEY_STRING) n p /\
    tag = Gcm.tag (hmac_sha256 s ENCRYPTION_KEY_STRING) n [] body /\
    length tag = AUTH_TAG_LENGTH /\
    length body = length p /\
    firstn NONCE_LENGTH (n ++ tag ++ body) = n /\
    length (n ++ tag ++ body) = (length p + 28)%nat.
Proof.
  intros Hn Hp.
  unfold encrypt, expect, bind, ret. cbv beta iota.
  rewrite encrypt_with_nonce_within_limit by exact Hp.
  do 3 eexists. split; [reflexivity|].
  split; [reflexivity|]. split; [reflexivity|].
  split; [apply tag_length|]. split; [apply ctr_length|]. split.
  - rewrite <- Hn, firstn_app, Nat.sub_diag, firstn_all, firstn_O, app_nil_r.
    reflexivity.
  - rewrite !length_app, tag_length, ctr_length, Hn. unfold NONCE_LENGTH. lia.
Qed.

Lemma encrypt_wire_format_witness :
  length test_nonce = NONCE_LENGTH /\
  Z.of_nat (length test_plaintext) <= Gcm.max_input_len /\
  exists tag body log',
    encrypt (Some test_nonce) test_secret test_plaintext [] = Some (test_nonce ++ tag ++ body, log') /\
    body = Gcm.ctr (hmac_sha256 test_secret ENCRYPTION_KEY_STRING) test_nonce test_plaintext /\
    tag = Gcm.tag (hmac_sha256 test_secret ENCRYPTION_KEY_STRING) test_nonce [] body /\
    length tag = AUTH_TAG_LENGTH /\
    length body = length test_plaintext /\
    firstn NONCE_LENGTH (test_nonce ++ tag ++ body) = test_nonce /\
    length (test_nonce ++ tag ++ body) = (length test_plaintext + 28)%nat.
Proof.
  split; [reflexivity|]. split; [vm_compute; congruence|].
  apply encrypt_wire_format; [reflexivity | vm_compute; congruence].
Defined.

(** C2, as stated for every plaintext, fails: [encrypt] returns no
    envelope for a plaintext over the per-nonce limit (it panics). *)
Lemma encrypt_wire_format_counterexample :
  ~ exists env log', encrypt (Some test_nonce) test_secret oversized_plaintext [] = Some (env, log').
Proof.
  intros [env [log' H]].
  rewrite encrypt_beyond_limit in H by (rewrite oversized_plaintext_length; lia).
  discriminate H.
Qed.

(** ** Hash lock *)

(** C3: for every shared secret and data, the condition is the SHA-256 of
    the fulfillment, and the fulfillment is the HMAC-SHA-256 of the data
    under the HMAC-SHA-256 of the secret and "ilp_stream_fulfillment". *)
Theorem condition_is_sha256_of_fulfillment (s d : bytes) :
  generate_condition s d = Sha256.digest (generate_fulfillment s d) /\
  generate_fulfillment s d
  = hmac_sha256 (hmac_sha256 s (list_byte_of_string "ilp_stream_fulfillment")) d.
Proof. split; reflexivity. Qed.

(** ** Length guard *)

(** C4: an envelope shorter than 16 bytes is rejected with [Err(())] and
    the log of cryptographic calls is left as it was: no key derivation and
    no cipher call happen. *)
Theorem decrypt_rejects_short_envelope (s env : bytes) log :
  (length env < 16)%nat -> decrypt s env log = Some (Err tt, log).
Proof. intros H. apply decrypt_short. exact H. Qed.

Lemma decrypt_rejects_short_envelope_witness :
  (length (firstn 15 test_envelope) < 16)%nat /\
  decrypt test_secret (firstn 15 test_envelope) [] = Some (Err tt, []).
Proof.
  split; [vm_compute; lia|].
  apply decrypt_rejects_short_envelope. vm_compute. lia.
Defined.

(** ** Lenient tag extraction *)

(** C5: an envelope of 16 to 27 bytes passes the length guard: the key is
    derived, the first 12 bytes are the nonce, [min 16 remaining] bytes
    (here all the remaining ones) are the tag, and [open_in_place] is called
    on [body ++ tag]; that call is what fails, having fewer than 16 bytes. *)
Theorem decrypt_lenient_tag_extraction (s env : bytes) log :
  (16 <= length env < 28)%nat ->
  let key := hmac_sha256 s ENCRYPTION_KEY_STRING in
  let rest := skipn NONCE_LENGTH env in
  let tag := firstn (Nat.min AUTH_TAG_LENGTH (length rest)) rest in
  let body := skipn (Nat.min AUTH_TAG_LENGTH (length rest)) rest in
  tag = rest /\ body = [] /\
  open_in_place key (firstn NONCE_LENGTH env) [] (body ++ tag) = None /\
  decrypt s env log =
  Some (Err tt, log ++ [CallHmacSha256 s ENCRYPTION_KEY_STRING; CallUnboundKeyNew key;
                        CallOpen (firstn NONCE_LENGTH env) (body ++ tag)]).
Proof.
  intros H key rest tag body.
  assert (Hrest : length rest = (length env - 12)%nat)
    by (unfold rest; rewrite length_skipn; reflexivity).
  assert (Hmin : Nat.min AUTH_TAG_LENGTH (length rest) = length rest)
    by (unfold AUTH_TAG_LENGTH; lia).
  assert (Htag : tag = rest) by (unfold tag; rewrite Hmin; apply firstn_all).
  assert (Hbody : body = []) by (unfold body; rewrite Hmin; apply skipn_all).
  assert (Hopen : open_in_place key (firstn NONCE_LENGTH env) [] (body ++ tag) = None).
  { unfold open_in_place. rewrite Hbody, Htag. cbn [app].
    replace (Nat.ltb (length rest) Gcm.tag_len) with true
      by (symmetry; apply Nat.ltb_lt; unfold Gcm.tag_len; lia).
    reflexivity. }
  split; [exact Htag|]. split; [exact Hbody|]. split; [exact Hopen|].
  rewrite decrypt_long by (unfold AUTH_TAG_LENGTH; lia).
  cbv zeta. fold key rest. fold tag body. rewrite Hopen. reflexivity.
Qed.

Lemma decrypt_lenient_tag_extraction_witness :
  (16 <= length (firstn 20 test_envelope) < 28)%nat /\
  decrypt test_secret (firstn 20 test_envelope) []
  = Some (Err tt, [CallHmacSha256 test_secret ENCRYPTION_KEY_STRING;
                   CallUnboundKeyNew (hmac_sha256 test_secret ENCRYPTION_KEY_STRING);
                   CallOpen (firstn 12 test_envelope) (skipn 12 (firstn 20 test_envelope))]).
Proof.
  split; [vm_compute; lia|].
  pose proof (decrypt_lenient_tag_extraction test_secret (firstn 20 test_envelope) [])
    as H.
  destruct H as (Htag & Hbody & _ & Hdec); [vm_compute; lia|].
  rewrite Hdec, Hbody, Htag. reflexivity.
Defined.

(** ** Error values *)

(** C6 (amended): [decrypt] returns [Ok] of the plaintext or [Err(())];
    [Err(())] is the one error value, returned both for an envelope shorter
    than 16 bytes and whenever [open_in_place] rejects its input, so the two
    failure causes reach the caller as the same value. *)
Theorem decrypt_single_error_value (s env : bytes) log :
  let key := hmac_sha256 s ENCRYPTION_KEY_STRING in
  let rest := skipn NONCE_LENGTH env in
  let tag := firstn (Nat.min AUTH_TAG_LENGTH (length rest)) rest in
  let body := skipn (Nat.min AUTH_TAG_LENGTH (length rest)) rest in
  exists log',
    decrypt s env log =
    Some ((if Nat.ltb (length env) AUTH_TAG_LENGTH then Err tt
           else match open_in_place key (firstn NONCE_LENGTH env) [] (body ++ tag) with
                | None => Err tt
                | Some (buf, n) => Ok (firstn n buf)
                end), log').
Proof.
  intros key rest tag body.
  destruct (Nat.ltb_spec (length env) AUTH_TAG_LENGTH) as [H | H].
  - exists log. apply decrypt_short. exact H.
  - rewrite decrypt_long by exact H. eexists. reflexivity.
Qed.

(** C6, as stated, fails: a 10-byte envelope (too short) and the crate's
    envelope with one tag bit flipped (authentication failure) give the
    caller the same value [Err(())]. *)
Lemma decrypt_error_values_counterexample :
  run (decrypt test_secret (firstn 10 test_envelope)) = Some (Err tt) /\
  run (decrypt test_secret forged_envelope) = Some (Err tt) /\
  run (decrypt test_secret (firstn 10 test_envelope))
  = run (decrypt test_secret forged_envelope).
Proof. vm_compute. auto. Qed.

(** ** Concrete vector *)

(** C7: the fulfillment of the crate's test vector. *)
Theorem fulfillment_test_vector :
  generate_fulfillment test_secret test_data = test_fulfillment.
Proof. vm_compute. reflexivity. Qed.

(** ** Totality *)

(** C10: for every shared secret and every envelope, [decrypt] returns a
    value, [Ok] or [Err]: none of its [split_to], [copy_from_slice] or
    [expect] panics. *)
Theorem decrypt_never_panics (s env : bytes) log :
  exists r log', decrypt s env log = Some (r, log').
Proof.
  destruct (Nat.lt_ge_cases (length env) AUTH_TAG_LENGTH) as [H | H].
  - exists (Err tt), log. apply decrypt_short. exact H.
  - rewrite decrypt_long by exact H. cbv zeta. eauto.
Qed.

(** * Further properties of the crate's functions *)

(** ** Helpers *)

Lemma bytes_eqb_true (xs ys : bytes) : bytes_eqb xs ys = true -> xs = ys.
Proof.
  revert ys; induction xs as [|x xs IH]; intros [|y ys] H; simpl in H;
    try discriminate; auto.
  apply andb_prop in H as [Hxy Hrest].
  apply Byte.byte_dec_bl in Hxy. subst. f_equal. auto.
Qed.

(** [encrypt_with_nonce] and [decrypt] depend on the shared secret only
    through the derived encryption key. *)
Lemma same_encryption_key_same_results (s1 s2 env p n : bytes) :
  hmac_sha256 s1 ENCRYPTION_KEY_STRING = hmac_sha256 s2 ENCRYPTION_KEY_STRING ->
  run (decrypt s1 env) = run (decrypt s2 env) /\
  run (encrypt_with_nonce s1 p n) = run (encrypt_with_nonce s2 p n).
Proof.
  intros Hk. split.
  - unfold run.
    destruct (Nat.lt_ge_cases (length env) AUTH_TAG_LENGTH) as [H | H].
    + rewrite !decrypt_short by exact H. reflexivity.
    + rewrite !decrypt_long by exact H. cbv zeta. rewrite Hk. reflexivity.
  - unfold run.
    destruct (Z.le_gt_cases (Z.of_nat (length p)) Gcm.max_input_len) as [H | H].
    + rewrite !encrypt_with_nonce_within_limit by exact H. rewrite Hk. reflexivity.
    + rewrite !encrypt_with_nonce_beyond_limit by lia. reflexivity.
Qed.

(** What an [Ok] answer of [decrypt] tells about the envelope. *)
Lemma decrypt_ok_inversion (s env p : bytes) log log' :
  decrypt s env log = Some (Ok p, log') ->
  let key := hmac_sha256 s ENCRYPTION_KEY_STRING in
  let nonce := firstn NONCE_LENGTH env in
  let body := skipn 28 env in
  (28 <= length env)%nat /\
  Z.of_nat (length body) <= Gcm.max_input_len /\
  firstn AUTH_TAG_LENGTH (skipn NONCE_LENGTH env) = Gcm.tag key nonce [] body /\
  p = Gcm.ctr key nonce body.
Proof.
  intros Hd key nonce body.
  destruct (Nat.lt_ge_cases (length env) AUTH_TAG_LENGTH) as [H | H].
  { rewrite decrypt_short in Hd by exact H. discriminate Hd. }
  rewrite decrypt_long in Hd by exact H. cbv zeta in Hd. fold key nonce in Hd.
  set (rest := skipn NONCE_LENGTH env) in *.
  set (m := Nat.min AUTH_TAG_LENGTH (length rest)) in *.
  set (input := skipn m rest ++ firstn m rest) in *.
  destruct (open_in_place key nonce [] input) as [[buf n]|] eqn:Hopen;
    [|discriminate Hd].
  injection Hd as Hp _. subst p.
  assert (Hrest : length rest = (length env - 12)%nat)
    by (unfold rest; rewrite length_skipn; reflexivity).
  assert (Hinput : length input = length rest).
  { unfold input. rewrite length_app, length_skipn, length_firstn. lia. }
  unfold open_in_place, Gcm.tag_len in Hopen. cbv zeta in Hopen.
  destruct (Nat.ltb_spec (length input) 16) as [Hlt | Hge]; [discriminate Hopen|].
  destruct (Z.ltb_spec Gcm.max_input_len (Z.of_nat (length input - 16)))
    as [Hmax | Hmax]; [discriminate Hopen|].
  assert (Hm : m = 16%nat) by (unfold m, AUTH_TAG_LENGTH; lia).
  assert (Hbody : skipn m rest = body).
  { unfold body, rest. rewrite Hm, skipn_skipn. reflexivity. }
  assert (Hlb : length body = (length input - 16)%nat).
  { rewrite <- Hbody, length_skipn. lia. }
  assert (Hfirst : firstn (length input - 16) input = body).
  { rewrite <- Hlb. unfold input. rewrite Hbody, firstn_app, Nat.sub_diag, firstn_O,
      app_nil_r, firstn_all. reflexivity. }
  assert (Hskip : skipn (length input - 16) input = firstn m rest).
  { rewrite <- Hlb. unfold input. rewrite Hbody, skipn_app, Nat.sub_diag, skipn_O,
      skipn_all. reflexivity. }
  rewrite Hfirst, Hskip in Hopen.
  destruct (bytes_eqb (Gcm.tag key nonce [] body) (firstn m rest)) eqn:Heq;
    [|discriminate Hopen].
  apply bytes_eqb_true in Heq.
  injection Hopen as Hbuf Hn. subst buf n.
  split; [unfold NONCE_LENGTH in *; lia|].
  split; [rewrite Hlb; exact Hmax|].
  split; [rewrite Heq, Hm; reflexivity|].
  rewrite firstn_app, ctr_length, <- Hlb, Nat.sub_diag, firstn_O, app_nil_r.
  rewrite firstn_all2 by (rewrite ctr_length; lia). reflexivity.
Qed.

Lemma hmac_sha256_trailing_zero (s m : bytes) :
  (length s < 64)%nat -> hmac_sha256 (s ++ [x00]) m = hmac_sha256 s m.
Proof.
  intros H. unfold hmac_sha256, ring_hmac_sign, hmac_block_len. cbv zeta.
  rewrite !length_app. cbn [length].
  replace (Nat.ltb 64 (length s + 1)) with false by (symmetry; apply Nat.ltb_ge; lia).
  replace (Nat.ltb 64 (length s)) with false by (symmetry; apply Nat.ltb_ge; lia).
  cbv iota. rewrite !length_app. cbn [length].
  replace (64 - length s)%nat with (S (64 - (length s + 1))) by lia.
  cbn [repeat]. rewrite <- app_assoc. reflexivity.
Qed.

Lemma hmac_sha256_long_key (s m : bytes) :
  (64 < length s)%nat -> hmac_sha256 s m = hmac_sha256 (hash_sha256 s) m.
Proof.
  intros H. unfold hmac_sha256, ring_hmac_sign, hash_sha256, hmac_block_len.
  rewrite digest_length.
  replace (Nat.ltb 64 (length s)) with true by (symmetry; apply Nat.ltb_lt; lia).
  reflexivity.
Qed.

(** ** Output sizes *)

(** X1: [hmac_sha256], [hash_sha256], [generate_fulfillment] and
    [generate_condition] always give 32 bytes, so the [copy_from_slice]
    into their [[u8; 32]] results never panics. *)
Theorem digests_are_32_bytes (key message preimage s d : bytes) :
  length (hmac_sha256 key message) = 32%nat /\
  length (hash_sha256 preimage) = 32%nat /\
  length (generate_fulfillment s d) = 32%nat /\
  length (generate_condition s d) = 32%nat.
Proof.
  split; [apply hmac_sha256_length|].
  split; [apply digest_length|].
  split; [apply hmac_sha256_length | apply digest_length].
Qed.

(** ** Equivalent shared secrets *)

(** X2: a shared secret shorter than 64 bytes and the same secret with a
    zero byte appended give the same fulfillments, conditions, envelopes
    and decryptions (HMAC pads its key with zeros). *)
Theorem trailing_zero_secret_equivalent (s d env p n : bytes) :
  (length s < 64)%nat ->
  generate_fulfillment (s ++ [x00]) d = generate_fulfillment s d /\
  generate_condition (s ++ [x00]) d = generate_condition s d /\
  run (encrypt_with_nonce (s ++ [x00]) p n) = run (encrypt_with_nonce s p n) /\
  run (decrypt (s ++ [x00]) env) = run (decrypt s env).
Proof.
  intros H.
  assert (Hf : generate_fulfillment (s ++ [x00]) d = generate_fulfillment s d).
  { unfold generate_fulfillment. rewrite hmac_sha256_trailing_zero by exact H.
    reflexivity. }
  destruct (same_encryption_key_same_results (s ++ [x00]) s env p n) as [Hd He].
  { apply hmac_sha256_trailing_zero. exact H. }
  split; [exact Hf|]. split; [unfold generate_condition; rewrite Hf; reflexivity|].
  auto.
Qed.

Lemma trailing_zero_secret_equivalent_witness :
  (length test_secret < 64)%nat /\
  generate_fulfillment (test_secret ++ [x00]) test_data = generate_fulfillment test_secret test_data /\
  generate_condition (test_secret ++ [x00]) test_data = generate_condition test_secret test_data /\
  run (encrypt_with_nonce (test_secret ++ [x00]) test_plaintext test_nonce)
  = run (encrypt_with_nonce test_secret test_plaintext test_nonce) /\
  run (decrypt (test_secret ++ [x00]) test_envelope) = run (decrypt test_secret test_envelope).
Proof.
  split; [vm_compute; lia|].
  apply trailing_zero_secret_equivalent. vm_compute. lia.
Defined.

(** X3: a shared secret longer than 64 bytes gives the same fulfillments,
    conditions, envelopes and decryptions as its SHA-256 digest (HMAC
    hashes such keys first). *)
Theorem long_secret_equivalent_to_its_hash (s d env p n : bytes) :
  (64 < length s)%nat ->
  generate_fulfillment s d = generate_fulfillment (hash_sha256 s) d /\
  generate_condition s d = generate_condition (hash_sha256 s) d /\
  run (encrypt_with_nonce s p n) = run (encrypt_with_nonce (hash_sha256 s) p n) /\
  run (decrypt s env) = run (decrypt (hash_sha256 s) env).
Proof.
  intros H.
  assert (Hf : generate_fulfillment s d = generate_fulfillment (hash_sha256 s) d).
  { unfold generate_fulfillment. rewrite (hmac_sha256_long_key s) by exact H.
    reflexivity. }
  destruct (same_encryption_key_same_results s (hash_sha256 s) env p n) as [Hd He].
  { apply hmac_sha256_long_key. exact H. }
  split; [exact Hf|]. split; [unfold generate_condition; rewrite Hf; reflexivity|].
  auto.
Qed.

Definition long_test_secret : bytes := test_secret ++ test_secret ++ [x01].

Lemma long_secret_equivalent_to_its_hash_witness :
  (64 < length long_test_secret)%nat /\
  generate_fulfillment long_test_secret test_data
  = generate_fulfillment (hash_sha256 long_test_secret) test_data /\
  generate_condition long_test_secret test_data
  = generate_condition (hash_sha256 long_test_secret) test_data /\
  run (encrypt_with_nonce long_test_secret test_plaintext test_nonce)
  = run (encrypt_with_nonce (hash_sha256 long_test_secret) test_plaintext test_nonce) /\
  run (decrypt long_test_secret test_envelope)
  = run (decrypt (hash_sha256 long_test_secret) test_envelope).
Proof.
  split; [vm_compute; lia|].
  apply long_secret_equivalent_to_its_hash. vm_compute. lia.
Defined.

(** ** What [decrypt] accepts *)

(** X4: when [decrypt] returns a plaintext, the envelope had at least 28
    bytes and the plaintext is 28 bytes shorter than it. *)
Theorem decrypt_ok_length (s env p : bytes) log log' :
  decrypt s env log = Some (Ok p, log') ->
  (28 <= length env)%nat /\ length p = (length env - 28)%nat.
Proof.
  intros Hd. destruct (decrypt_ok_inversion s env p log log' Hd) as (H28 & _ & _ & Hp).
  split; [exact H28|]. rewrite Hp, ctr_length, length_skipn. reflexivity.
Qed.

Lemma decrypt_ok_length_witness :
  decrypt test_secret test_envelope [] = Some (Ok test_plaintext,
    [CallHmacSha256 test_secret ENCRYPTION_KEY_STRING;
     CallUnboundKeyNew (hmac_sha256 test_secret ENCRYPTION_KEY_STRING);
     CallOpen (firstn 12 test_envelope) (skipn 28 test_envelope ++ firstn 16 (skipn 12 test_envelope))]) /\
  (28 <= length test_envelope)%nat /\ length test_plaintext = (length test_envelope - 28)%nat.
Proof.
  assert (Hd : decrypt test_secret test_envelope [] = Some (Ok test_plaintext,
    [CallHmacSha256 test_secret ENCRYPTION_KEY_STRING;
     CallUnboundKeyNew (hmac_sha256 test_secret ENCRYPTION_KEY_STRING);
     CallOpen (firstn 12 test_envelope) (skipn 28 test_envelope ++ firstn 16 (skipn 12 test_envelope))]))
    by (vm_compute; reflexivity).
  split; [exact Hd|]. exact (decrypt_ok_length _ _ _ _ _ Hd).
Defined.

(** X5: every envelope [decrypt] accepts is exactly the envelope
    [encrypt_with_nonce] makes from the returned plaintext, the same secret
    and the envelope's first 12 bytes as nonce. *)
Theorem decrypt_accepts_only_encrypt_outputs (s env p : bytes) log log' :
  decrypt s env log = Some (Ok p, log') ->
  run (encrypt_with_nonce s p (firstn NONCE_LENGTH env)) = Some env.
Proof.
  intros Hd.
  destruct (decrypt_ok_inversion s env p log log' Hd) as (H28 & Hmax & Htag & Hp).
  unfold run. rewrite encrypt_with_nonce_within_limit.
  2:{ rewrite Hp, ctr_length. exact Hmax. }
  cbn [option_map fst]. f_equal.
  rewrite Hp, ctr_involutive, <- Htag.
  unfold NONCE_LENGTH, AUTH_TAG_LENGTH.
  replace 28%nat with (16 + 12)%nat by reflexivity.
  rewrite <- skipn_skipn, !firstn_skipn. reflexivity.
Qed.

Lemma decrypt_accepts_only_encrypt_outputs_witness :
  decrypt test_secret test_envelope [] = Some (Ok test_plaintext,
    [CallHmacSha256 test_secret ENCRYPTION_KEY_STRING;
     CallUnboundKeyNew (hmac_sha256 test_secret ENCRYPTION_KEY_STRING);
     CallOpen (firstn 12 test_envelope) (skipn 28 test_envelope ++ firstn 16 (skipn 12 test_envelope))]) /\
  run (encrypt_with_nonce test_secret test_plaintext (firstn NONCE_LENGTH test_envelope))
  = Some test_envelope.
Proof.
  assert (Hd : decrypt test_secret test_envelope [] = Some (Ok test_plaintext,
    [CallHmacSha256 test_secret ENCRYPTION_KEY_STRING;
     CallUnboundKeyNew (hmac_sha256 test_secret ENCRYPTION_KEY_STRING);
     CallOpen (firstn 12 test_envelope) (skipn 28 test_envelope ++ firstn 16 (skipn 12 test_envelope))]))
    by (vm_compute; reflexivity).
  split; [exact Hd|]. exact (decrypt_accepts_only_encrypt_outputs _ _ _ _ _ Hd).
Defined.

(** *** Xor algebra for the counter-mode keystream *)

Lemma xorb_cancel_common (a b c : bool) : xorb (xorb a c) (xorb b c) = xorb a b.
Proof. destruct a, b, c; reflexivity. Qed.

Lemma byte_xor_cancel_common (a b e : byte) :
  byte_xor (byte_xor a e) (byte_xor b e) = byte_xor a b.
Proof.
  unfold byte_xor. rewrite !Byte.to_bits_of_bits. f_equal.
  destruct (Byte.to_bits a) as (x0 & x1 & x2 & x3 & x4 & x5 & x6 & x7).
  destruct (Byte.to_bits b) as (y0 & y1 & y2 & y3 & y4 & y5 & y6 & y7).
  destruct (Byte.to_bits e) as (z0 & z1 & z2 & z3 & z4 & z5 & z6 & z7).
  cbn. now rewrite !xorb_cancel_common.
Qed.

Lemma bytes_xor_cancel_common (xs ys ks : bytes) :
  length xs = length ys -> (length xs <= length ks)%nat ->
  bytes_xor (bytes_xor xs ks) (bytes_xor ys ks) = bytes_xor xs ys.
Proof.
  revert ys ks; induction xs as [|x xs IH]; intros [|y ys] [|k ks] Hl Hk;
    simpl in *; try lia; auto.
  rewrite byte_xor_cancel_common, IH by lia. reflexivity.
Qed.

Lemma bytes_xor_app (a b c d : bytes) :
  length a = length b -> bytes_xor (a ++ c) (b ++ d) = bytes_xor a b ++ bytes_xor c d.
Proof.
  revert b; induction a as [|x a IH]; intros [|y b] Hl; simpl in *; try lia; auto.
  rewrite IH by lia. reflexivity.
Qed.

Lemma gctr_fuel_xor fuel rk cb (x y : bytes) :
  length x = length y -> (length x <= fuel)%nat ->
  bytes_xor (Gcm.gctr_fuel fuel rk cb x) (Gcm.gctr_fuel fuel rk cb y) = bytes_xor x y.
Proof.
  revert cb x y; induction fuel as [|fuel IH]; intros cb x y Hl Hf.
  - destruct x, y; simpl in *; try lia. reflexivity.
  - destruct x as [|b x']; [destruct y; simpl in *; [reflexivity | lia]|].
    destruct y as [|c y']; [simpl in Hl; lia|].
    cbn [Gcm.gctr_fuel]. unfold Gcm.block_len.
    set (x := b :: x') in *. set (y := c :: y') in *.
    set (E := Aes.encrypt_block rk (be_bytes 16 cb)).
    assert (HE : length E = 16%nat) by apply encrypt_block_length.
    rewrite bytes_xor_app.
    2:{ rewrite !bytes_xor_length, !length_firstn, Hl. reflexivity. }
    rewrite bytes_xor_cancel_common by (rewrite ?length_firstn, ?HE; lia).
    rewrite IH by (rewrite !length_skipn; simpl length in *; lia).
    rewrite <- bytes_xor_app by (rewrite !length_firstn; lia).
    rewrite !firstn_skipn. reflexivity.
Qed.

Lemma ctr_xor (key nonce x y : bytes) :
  length x = length y ->
  bytes_xor (Gcm.ctr key nonce x) (Gcm.ctr key nonce y) = bytes_xor x y.
Proof.
  intros Hl. unfold Gcm.ctr, Gcm.gctr. rewrite <- Hl.
  apply gctr_fuel_xor; lia.
Qed.

Lemma some_inj {A} (a b : A) : Some a = Some b -> a = b.
Proof. intros H. injection H. auto. Qed.

Lemma encrypt_with_nonce_some (s p n e : bytes) :
  run (encrypt_with_nonce s p n) = Some e ->
  Z.of_nat (length p) <= Gcm.max_input_len /\
  e = n ++ Gcm.tag (hmac_sha256 s ENCRYPTION_KEY_STRING) n []
                   (Gcm.ctr (hmac_sha256 s ENCRYPTION_KEY_STRING) n p)
        ++ Gcm.ctr (hmac_sha256 s ENCRYPTION_KEY_STRING) n p.
Proof.
  unfold run. intros He.
  destruct (Z_le_gt_dec (Z.of_nat (length p)) Gcm.max_input_len) as [Hle | Hgt].
  - rewrite encrypt_with_nonce_within_limit in He by exact Hle.
    cbn [option_map fst] in He. apply some_inj in He. subst e. auto.
  - rewrite encrypt_with_nonce_beyond_limit in He by lia. discriminate.
Qed.

(** X6: for a given secret, nonce and ciphertext body, [decrypt] accepts
    at most one tag: once it accepts an envelope, any envelope with the
    same nonce and body but different tag bytes is rejected. *)
Theorem decrypt_accepts_one_tag (s env env' p : bytes) log log1 log' :
  decrypt s env log = Some (Ok p, log1) ->
  firstn NONCE_LENGTH env' = firstn NONCE_LENGTH env ->
  skipn 28 env' = skipn 28 env ->
  firstn AUTH_TAG_LENGTH (skipn NONCE_LENGTH env')
  <> firstn AUTH_TAG_LENGTH (skipn NONCE_LENGTH env) ->
  forall p' log1', decrypt s env' log' <> Some (Ok p', log1').
Proof.
  intros Hd Hn Hb Ht p' log1' Hd'.
  destruct (decrypt_ok_inversion s env p log log1 Hd) as (_ & _ & Htag & _).
  destruct (decrypt_ok_inversion s env' p' log' log1' Hd') as (_ & _ & Htag' & _).
  apply Ht. rewrite Htag, Htag', Hn, Hb. reflexivity.
Qed.

Definition test_open_log : list crypto_call :=
  [CallHmacSha256 test_secret ENCRYPTION_KEY_STRING;
   CallUnboundKeyNew (hmac_sha256 test_secret ENCRYPTION_KEY_STRING);
   CallOpen (firstn 12 test_envelope)
            (skipn 28 test_envelope ++ firstn 16 (skipn 12 test_envelope))].

Lemma decrypt_accepts_one_tag_witness :
  decrypt test_secret test_envelope [] = Some (Ok test_plaintext, test_open_log) /\
  firstn NONCE_LENGTH forged_envelope = firstn NONCE_LENGTH test_envelope /\
  skipn 28 forged_envelope = skipn 28 test_envelope /\
  firstn AUTH_TAG_LENGTH (skipn NONCE_LENGTH forged_envelope)
  <> firstn AUTH_TAG_LENGTH (skipn NONCE_LENGTH test_envelope) /\
  decrypt test_secret forged_envelope [] <> Some (Ok test_plaintext, []).
Proof.
  assert (Hd : decrypt test_secret test_envelope [] = Some (Ok test_plaintext, test_open_log))
    by (vm_compute; reflexivity).
  assert (Hn : firstn NONCE_LENGTH forged_envelope = firstn NONCE_LENGTH test_envelope)
    by (vm_compute; reflexivity).
  assert (Hb : skipn 28 forged_envelope = skipn 28 test_envelope)
    by (vm_compute; reflexivity).
  assert (Ht : firstn AUTH_TAG_LENGTH (skipn NONCE_LENGTH forged_envelope)
               <> firstn AUTH_TAG_LENGTH (skipn NONCE_LENGTH test_envelope))
    by (intro Hc; vm_compute in Hc; discriminate Hc).
  split; [exact Hd|]. split; [exact Hn|]. split; [exact Hb|]. split; [exact Ht|].
  exact (decrypt_accepts_one_tag test_secret test_envelope forged_envelope test_plaintext
           [] test_open_log [] Hd Hn Hb Ht test_plaintext []).
Defined.

(** X7: [encrypt_with_nonce] used twice with the same secret and nonce on
    plaintexts of equal length gives ciphertext bodies whose xor is the
    xor of the plaintexts (AES-GCM is a stream cipher under one nonce). *)
Theorem nonce_reuse_reveals_plaintext_xor (s n p1 p2 e1 e2 : bytes) :
  length p1 = length p2 ->
  run (encrypt_with_nonce s p1 n) = Some e1 ->
  run (encrypt_with_nonce s p2 n) = Some e2 ->
  bytes_xor (skipn (length n + AUTH_TAG_LENGTH) e1)
            (skipn (length n + AUTH_TAG_LENGTH) e2) = bytes_xor p1 p2.
Proof.
  intros Hl H1 H2.
  destruct (encrypt_with_nonce_some s p1 n e1 H1) as [_ ->].
  destruct (encrypt_with_nonce_some s p2 n e2 H2) as [_ ->].
  assert (Hs : forall a b c : bytes, length b = AUTH_TAG_LENGTH ->
                skipn (length a + AUTH_TAG_LENGTH) (a ++ b ++ c) = c).
  { intros a b c Hb. rewrite <- Hb, Nat.add_comm, <- skipn_skipn.
    rewrite skipn_app, skipn_all, Nat.sub_diag, skipn_O. cbn [app].
    rewrite skipn_app, skipn_all, Nat.sub_diag, skipn_O. reflexivity. }
  rewrite !Hs by apply tag_length.
  apply ctr_xor. exact Hl.
Qed.

Definition zero_plaintext : bytes := repeat x00 (length test_plaintext).

Definition zero_envelope : bytes :=
  match run (encrypt_with_nonce test_secret zero_plaintext test_nonce) with
  | Some e => e
  | None => []
  end.

Lemma nonce_reuse_reveals_plaintext_xor_witness :
  length test_plaintext = length zero_plaintext /\
  run (encrypt_with_nonce test_secret test_plaintext test_nonce) = Some test_envelope /\
  run (encrypt_with_nonce test_secret zero_plaintext test_nonce) = Some zero_envelope /\
  bytes_xor (skipn (length test_nonce + AUTH_TAG_LENGTH) test_envelope)
            (skipn (length test_nonce + AUTH_TAG_LENGTH) zero_envelope)
  = bytes_xor test_plaintext zero_plaintext.
Proof.
  assert (Hl : length test_plaintext = length zero_plaintext)
    by (unfold zero_plaintext; rewrite repeat_length; reflexivity).
  assert (H1 : run (encrypt_with_nonce test_secret test_plaintext test_nonce)
               = Some test_envelope) by (vm_compute; reflexivity).
  assert (H2 : run (encrypt_with_nonce test_secret zero_plaintext test_nonce)
               = Some zero_envelope) by (vm_compute; reflexivity).
  split; [exact Hl|]. split; [exact H1|]. split; [exact H2|].
  exact (nonce_reuse_reveals_plaintext_xor _ _ _ _ _ _ Hl H1 H2).
Defined.
